(** * Linear magnetic inversion notebook (docs/case-studies/PF/Linear_Problem_Mag.ipynb)

    A shallow embedding of the numerical steps the notebook performs itself
    (active-cell index array, fancy indexing, distance weights, block model,
    topography) and of the contracts of the library objects it drives
    (active-cell map, forward operator, projected Gauss-Newton optimiser and
    inversion driver), followed by the properties established about them.

    Conventions.
    - Integer index arrays ([dtype=int]) are [Z] with the 64-bit wrap-around
      written out.
    - Real-valued arrays are lists over [R]: general theorems are stated in
      exact real arithmetic.  Where numpy yields a non-finite value (0/0, x/0)
      the outcome is made explicit by the type [npfloat].  Bit-level binary64
      behaviour, where a statement depends on it, is evaluated on the kernel's
      primitive floats.
    - A Python exception is [None]. *)

From Stdlib Require Import Floats.
From Stdlib Require Import ZArith List Lia Reals Lra Psatz Bool Sorted.
From stdpp Require Import base list.
Import ListNotations.

Set Warnings "-inexact-float".

(* ===================================================================== *)
(** ** Active-cell index array (notebook cell 2, line
       [actv = np.asarray([inds for inds, elem in enumerate(actv, 1) if elem],
                          dtype = int) - 1]) *)
(* ===================================================================== *)

Module ActiveIndex.

Local Open Scope Z_scope.

(** Python's [enumerate(xs, start)]. *)
Fixpoint enumerate {A : Type} (xs : list A) (start : Z) : list (Z * A) :=
  match xs with
  | [] => []
  | x :: rest => (start, x) :: enumerate rest (start + 1)
  end.

(** The list comprehension [[inds for inds, elem in enumerate(actv, 1) if elem]]
    (Python integers are unbounded). *)
Definition comprehension (actv : list bool) : list Z :=
  map fst (List.filter snd (enumerate actv 1)).

Definition int64_min : Z := - 2 ^ 63.
Definition int64_max : Z := 2 ^ 63 - 1.

Definition in_int64 (z : Z) : bool := (int64_min <=? z) && (z <=? int64_max).

(** Two's-complement wrap-around of 64-bit array arithmetic. *)
Definition wrap64 (z : Z) : Z := (z + 2 ^ 63) mod 2 ^ 64 - 2 ^ 63.

(** [np.asarray(l, dtype=int)], a 64-bit integer array: an [OverflowError]
    ([None]) when a Python integer does not fit the element type. *)
Definition np_asarray_int (l : list Z) : option (list Z) :=
  if forallb in_int64 l then Some l else None.

(** [arr - k] on an int64 array. *)
Definition np_sub_scalar (arr : list Z) (k : Z) : list Z :=
  map (fun z => wrap64 (z - k)) arr.

(** The whole right-hand side of the notebook's assignment to [actv]. *)
Definition actv_indices (actv : list bool) : option (list Z) :=
  match np_asarray_int (comprehension actv) with
  | Some arr => Some (np_sub_scalar arr 1)
  | None => None
  end.

(** Reference definition, following the words "the zero-based indices of the
    True entries in ascending order" ([np.where(actv)[0]]): the positions
    [0 .. len-1], in that order, kept when the entry is [True]. *)
Definition np_where (actv : list bool) : list Z :=
  map Z.of_nat (List.filter (fun i => nth i actv false) (seq 0 (length actv))).

(** Positions of the [true] entries of [xs], counted from [k]. *)
Fixpoint trues_from (xs : list bool) (k : nat) : list nat :=
  match xs with
  | [] => []
  | b :: rest => if b then k :: trues_from rest (S k) else trues_from rest (S k)
  end.

End ActiveIndex.

(* ===================================================================== *)
(** ** Reduced space and full-mesh space (notebook cells 2, 3 and 7:
       [actvMap = Maps.InjectActiveCells(mesh, actv, -100)],
       [model = model[actv]], [m_true = actvMap * model]) *)
(* ===================================================================== *)

Module ActiveMap.

(** numpy indexing [v[i]] with one integer: a negative index counts from the
    end, anything outside [-n, n) is an [IndexError]. *)
Definition np_index {A : Type} (v : list A) (i : Z) : option A :=
  let n := Z.of_nat (length v) in
  if ((0 <=? i) && (i <? n))%Z then v !! Z.to_nat i
  else if ((- n <=? i) && (i <? 0))%Z then v !! Z.to_nat (i + n)
  else None.

(** numpy fancy indexing [v[idx]] with an integer index array, as in the
    notebook's [model[actv]]. *)
Fixpoint np_take {A : Type} (v : list A) (idx : list Z) : option (list A) :=
  match idx with
  | [] => Some []
  | i :: rest =>
      match np_index v i, np_take v rest with
      | Some x, Some xs => Some (x :: xs)
      | _, _ => None
      end
  end.

(** The arguments the notebook passes to [Maps.InjectActiveCells]: the mesh
    (of which only its cell count matters here), the active index array and
    the value of the inactive cells. *)
Record InjectActiveCells : Type := {
  nC : nat;
  indActive : list Z;
  valInactive : R
}.

(** Writes [m[k]] at position [idx[k]] for each [k], in order. *)
Fixpoint scatter (full : list R) (idx : list Z) (m : list R) : list R :=
  match idx, m with
  | i :: idx', x :: m' => scatter (<[Z.to_nat i := x]> full) idx' m'
  | _, _ => full
  end.

Definition index_in_mesh (n : nat) (i : Z) : bool :=
  ((0 <=? i) && (i <? Z.of_nat n))%Z.

(** Modelled from the spec: the body of [InjectActiveCells]'s transform
    ([actvMap * m]) is library code outside the notebook.  Following the
    words "inactive cells receive a fixed sentinel value" and "an explicit
    index array plus a pure mapping function": the full-mesh vector is filled
    with the sentinel and each active value is written at its index.  A
    reduced vector of the wrong length, or an index outside the mesh, is an
    error. *)
Definition transform (amap : InjectActiveCells) (m : list R) : option (list R) :=
  if negb (length m =? length (indActive amap))%nat then None
  else if negb (forallb (index_in_mesh (nC amap)) (indActive amap)) then None
  else Some (scatter (replicate (nC amap) (valInactive amap)) (indActive amap) m).

(** The map the notebook builds from a topography mask of the mesh cells. *)
Definition notebook_actvMap (mask : list bool) (actv : list Z) : InjectActiveCells :=
  {| nC := length mask; indActive := actv; valInactive := (-100)%R |}.

End ActiveMap.

(* ===================================================================== *)
(** ** Floating-point array elements over the reals *)
(* ===================================================================== *)

Module NP.

Local Open Scope R_scope.

(** The value of a floating-point array element: a (real) number or one of
    the non-finite values numpy produces instead of raising. *)
Inductive npfloat : Type :=
  | Fin (r : R)
  | PInf
  | NInf
  | NaN.

(** Float division [x / y] as numpy performs it: [0/0] is [nan], [x/0] is a
    signed infinity (a warning, not an exception). *)
Definition np_div (x y : R) : npfloat :=
  if Req_EM_T y 0 then
    if Req_EM_T x 0 then NaN else if Rlt_dec 0 x then PInf else NInf
  else Fin (x / y).

End NP.

(* ===================================================================== *)
(** ** Distance weights (notebook cell 5:
       [wr = np.sum(prob.G**2.,axis=0)**0.5] and [wr = ( wr/np.max(wr) )]),
       in exact real arithmetic: squares, sums and square roots neither
       overflow, underflow nor round *)
(* ===================================================================== *)

Module DistanceWeights.
Import NP.

Local Open Scope R_scope.

(** [G**2.]: element-wise square of a 2-D array, given as its list of rows. *)
Definition np_square (G : list (list R)) : list (list R) :=
  map (map (fun x => x * x)) G.

(** [np.sum(A, axis=0)] for an array of shape [(nrows, ncols)]: the rows are
    added up element-wise, starting from zeros. *)
Definition np_sum_axis0 (ncols : nat) (A : list (list R)) : list R :=
  fold_left (zip_with Rplus) A (replicate ncols 0).

(** [v**0.5] on an array of non-negative entries (sums of squares here). *)
Definition np_sqrt (v : list R) : list R := map sqrt v.

(** [np.max(v)]: a [ValueError] on an empty array. *)
Definition np_max (v : list R) : option R :=
  match v with
  | [] => None
  | x :: rest => Some (fold_left Rmax rest x)
  end.

(** First line of the cell: [wr = np.sum(prob.G**2.,axis=0)**0.5]. *)
Definition column_norms (ncols : nat) (G : list (list R)) : list R :=
  np_sqrt (np_sum_axis0 ncols (np_square G)).

(** Second line of the cell: [wr = ( wr/np.max(wr) )]. *)
Definition normalise (wr : list R) : option (list npfloat) :=
  match np_max wr with
  | None => None
  | Some mx => Some (map (fun w => np_div w mx) wr)
  end.

Definition cell_weights (ncols : nat) (G : list (list R)) : option (list npfloat) :=
  normalise (column_norms ncols G).

(** A 2-D array of shape [(_, ncols)]. *)
Definition has_shape (ncols : nat) (G : list (list R)) : Prop :=
  List.Forall (fun row => length row = ncols) G.

(** Reference definition, following the words "column-wise L2 norm": the
    square root of the sum of the squared entries of column [j]. *)
Definition col_l2 (G : list (list R)) (j : nat) : R :=
  sqrt (fold_left (fun s row => s + nth j row 0 * nth j row 0) G 0).

Definition in_unit (w : npfloat) : Prop :=
  match w with
  | Fin r => 0 <= r <= 1
  | _ => False
  end.

(** "every component of wr lies in the interval [0,1] and at least one
    component equals exactly 1". *)
Definition unit_normalised (res : option (list npfloat)) : Prop :=
  exists wr, res = Some wr /\ List.Forall in_unit wr /\ List.Exists (fun w => w = Fin 1) wr.

Definition has_nonzero_entry (G : list (list R)) : Prop :=
  exists row x, In row G /\ In x row /\ x <> 0.

End DistanceWeights.

(* ===================================================================== *)
(** ** Forward operator (notebook cells 3 and 9:
       [idenMap = Maps.IdentityMap(nP = nC)],
       [prob = PF.Magnetics.MagneticIntegral(mesh, chiMap=idenMap, actInd=actv)],
       [d = prob.fields(model)],
       [pred = prob.fields(mrec)  #: this is matrix multiplication!!]) *)
(* ===================================================================== *)

Module Forward.

(** The element type of a floating-point array with the two operations a
    matrix-vector product needs.  It is instantiated with the real numbers
    (exact arithmetic) and with binary64 (the arithmetic numpy runs). *)
Class Scalar (T : Type) : Type := {
  zero : T;
  add : T -> T -> T;
  mul : T -> T -> T
}.

#[export] Instance R_scalar : Scalar R :=
  {| zero := 0%R; add := Rplus; mul := Rmult |}.

#[export] Instance f64_scalar : Scalar float :=
  {| zero := 0%float; add := PrimFloat.add; mul := PrimFloat.mul |}.

Section MatVec.
Context {T : Type} `{Scalar T}.

(** [u + v] on two 1-D arrays of one length. *)
Definition vadd (u v : list T) : list T := zip_with add u v.

(** Inner product, accumulated from zero in index order. *)
Definition dot (u v : list T) : T := fold_left add (zip_with mul u v) zero.

(** [G.dot(m)] for a 2-D array [G] given as its list of rows. *)
Definition matvec (G : list (list T)) (m : list T) : list T :=
  map (fun row => dot row m) G.

(** Modelled from the spec: [Maps.IdentityMap] is library code outside the
    notebook.  The spec has the forward map act on the model vector itself and
    the notebook calls this map the reduced identity map:
    [Maps.IdentityMap(nP = n) * m] is [m]; a vector of another length is
    rejected. *)
Definition IdentityMap (nP : nat) (m : list T) : option (list T) :=
  if (length m =? nP)%nat then Some m else None.

(** The linear forward problem: the sensitivity matrix (one row per receiver,
    one column per active cell) and the map from the model to the
    susceptibilities of the active cells. *)
Record MagneticIntegral : Type := {
  G : list (list T);
  chiMap : list T -> option (list T)
}.

(** [PF.Magnetics.MagneticIntegral(mesh, chiMap=idenMap, actInd=actv)] with
    [idenMap = Maps.IdentityMap(nP = nC)]. *)
Definition notebook_prob (Gm : list (list T)) (nC : nat) : MagneticIntegral :=
  {| G := Gm; chiMap := IdentityMap nC |}.

(** Modelled from the spec: the body of [MagneticIntegral.fields] is library
    code outside the notebook.  Following "predicted data vector [G·m]" (and
    the notebook's own remark that the call is a matrix multiplication): the
    mapped model [chiMap * m] is multiplied by [G]. *)
Definition fields (prob : MagneticIntegral) (m : list T) : option (list T) :=
  match chiMap prob m with
  | Some chi => Some (matvec (G prob) chi)
  | None => None
  end.
End MatVec.

Arguments MagneticIntegral T : clear implicits.

(** numpy's [np.array_equal] on binary64 arrays: same length and [==] on every
    pair of elements. *)
Fixpoint array_equal (u v : list float) : bool :=
  match u, v with
  | [], [] => true
  | x :: u', y :: v' => PrimFloat.eqb x y && array_equal u' v'
  | _, _ => false
  end.

(** A one-receiver, one-cell problem in binary64. *)
Definition prob_1x1 : MagneticIntegral float := notebook_prob [[0.1%float]] 1.

End Forward.

(* ===================================================================== *)
(** ** Optimiser and inversion driver (notebook cells 6 and 7:
       [opt = Optimization.ProjectedGNCG(maxIter=100 ,lower=0.,upper=1.,
                                         maxIterLS = 20, maxIterCG= 10, tolCG = 1e-3)],
       [inv = Inversion.BaseInversion(invProb, directiveList=[betaest, IRLS, update_Jacobi])],
       [m0 = np.ones(nC)*1e-4], [mrec = inv.run(m0)]) *)
(* ===================================================================== *)

Module Inversion.

Local Open Scope R_scope.

(** The keyword arguments of [ProjectedGNCG]. *)
Record ProjectedGNCG : Type := {
  maxIter : nat;
  lower : R;
  upper : R;
  maxIterLS : nat;
  maxIterCG : nat;
  tolCG : R
}.

Definition notebook_opt : ProjectedGNCG :=
  {| maxIter := 100; lower := 0; upper := 1; maxIterLS := 20; maxIterCG := 10; tolCG := 1e-3 |}.

(** [np.ones(nC)*1e-4] *)
Definition notebook_m0 (n : nat) : list R := map (fun x => x * 1e-4) (replicate n 1).

(** Every component within the bounds. *)
Definition in_box (lo hi : R) (m : list R) : Prop :=
  List.Forall (fun x => lo <= x <= hi) m.

(** The result of a run.  [model] is the value [inv.run(m0)] returns (the
    notebook binds it to [mrec] and uses it as a model vector); the other
    fields are the state the run leaves on the optimiser and on the directives
    (the notebook reads the smooth-model snapshot [IRLS.l2model] from there):
    whether a stopping criterion was met, the number of outer iterations, and
    the final state of the directives. *)
Record outcome (D : Type) : Type := {
  model : list R;
  converged : bool;
  iterations : nat;
  directives : D
}.

Arguments model {D} o.
Arguments converged {D} o.
Arguments iterations {D} o.
Arguments directives {D} o.

Section Run.
Variable opt : ProjectedGNCG.

(** The inverse problem and the directives enter through what they compute;
    the statements below hold whatever these are. *)
Variable D : Type.
Variable pre_iteration : D -> list R -> D.
Variable post_iteration : D -> list R -> D.
Variable directives_converged : D -> bool.
Variable gn_step : D -> list R -> list R.
Variable sufficient_decrease : D -> list R -> list R -> bool.
Variable tolerances_met : D -> list R -> list R -> bool.

Definition clip (x : R) : R := Rmax (lower opt) (Rmin (upper opt) x).

(** Modelled from the spec: the optimiser is library code outside the
    notebook.  PROJECT: "clip [m + Δm] to [lower, upper] component-wise". *)
Definition project (v : list R) : list R := map clip v.

Definition step_to (m dm : list R) : list R := zip_with Rplus m dm.
Definition step_from (mp m : list R) : list R := zip_with Rminus mp m.
Definition along (m : list R) (t : R) (p : list R) : list R :=
  zip_with (fun x d => x + t * d) m p.

(** Modelled from the spec: the optimiser is library code outside the
    notebook.  LINESEARCH: "backtracking on the projected step", "bounded
    number of trial steps, reducing step length geometrically (e.g., halving)
    on failure": the trial points are [m + t p] for [t = 1, 1/2, 1/4, ...]. *)
Fixpoint linesearch (trials : nat) (t : R) (d : D) (m p : list R) : option (list R) :=
  match trials with
  | O => None
  | S n =>
      let xt := along m t p in
      if sufficient_decrease d m xt then Some xt
      else linesearch n (t / 2) d m p
  end.

(** Modelled from the spec: the optimiser is library code outside the
    notebook.  Following section 4.4: GN_STEP yields [Δm] (the truncated
    conjugate-gradient solve, [gn_step]); PROJECT clips [m + Δm] to the
    bounds; LINESEARCH backtracks on the projected step; a failed line search
    falls back to the current iterate. *)
Definition outer_iteration (d : D) (m : list R) : list R :=
  let dm := gn_step d m in
  let mp := project (step_to m dm) in
  let p := step_from mp m in
  match linesearch (maxIterLS opt) 1 d m p with
  | Some xt => xt
  | None => m
  end.

(** Modelled from the spec: the driver is library code outside the notebook.
    One pass of its loop, following section 4.6: pre-iteration hooks, one
    outer iteration of the optimiser, post-iteration hooks. *)
Definition step (s : D * list R) : D * list R :=
  let d1 := pre_iteration (fst s) (snd s) in
  let m' := outer_iteration d1 (snd s) in
  (post_iteration d1 m', m').

(** Modelled from the spec: the global stop condition after a pass from
    state [s], "directive-driven convergence OR optimizer terminal state"
    (CHECK_CONVERGENCE: the tolerances are met). *)
Definition stops (s : D * list R) : bool :=
  let s' := step s in
  directives_converged (fst s') || tolerances_met (fst s') (snd s) (snd s').

(** Modelled from the spec: the driver is library code outside the
    notebook.  Following sections 4.4 and 4.6: the loop stops when a
    stopping criterion is met, or when the iteration budget is exhausted, in
    which case it terminates with the current model and the convergence flag
    false. *)
Fixpoint loop (budget k : nat) (s : D * list R) : outcome D :=
  match budget with
  | O => {| model := snd s; converged := false; iterations := k; directives := fst s |}
  | S b =>
      let s' := step s in
      if stops s
      then {| model := snd s'; converged := true; iterations := S k; directives := fst s' |}
      else loop b (S k) s'
  end.

Definition run (d0 : D) (m0 : list R) : outcome D := loop (maxIter opt) 0 (d0, m0).

(** The state after [k] passes. *)
Definition state_after (k : nat) (d0 : D) (m0 : list R) : D * list R :=
  Nat.iter k step (d0, m0).
End Run.

(** A line-search test for an objective that keeps decreasing beyond the
    upper bound 1: a trial point is accepted when its first component
    exceeds 1. *)
Definition accepts_above_one (d : unit) (m xt : list R) : bool :=
  match xt with
  | x :: _ => if Rle_dec x 1 then false else true
  | [] => false
  end.

End Inversion.

(* ===================================================================== *)
(** ** Restriction to the active cells (notebook cells 2 and 3:
       [nC = len(actv)], [model = model[actv]], and the commented alternative
       [actv = np.asarray(range(mesh.nC))]) *)
(* ===================================================================== *)

Module ActiveCells.

(** Reference definition: the entries of [v] at the positions where [mask]
    is [True], in order (what numpy calls a boolean-mask selection). *)
Fixpoint compress {A : Type} (mask : list bool) (v : list A) : list A :=
  match mask, v with
  | b :: mask', x :: v' => if b then x :: compress mask' v' else compress mask' v'
  | _, _ => []
  end.

(** Number of [True] entries. *)
Definition count_true (mask : list bool) : nat := length (List.filter (fun b => b) mask).

(** [np.asarray(range(n))] *)
Definition np_arange (n : nat) : list Z := map Z.of_nat (seq 0 n).

End ActiveCells.

(* ===================================================================== *)
(** ** Inputs of the distance weights that the notebook's cell does not
       guard against or distinguish *)
(* ===================================================================== *)

Module DistanceWeightsInputs.

Local Open Scope R_scope.

(** [c * G] for a scalar [c]. *)
Definition scale_matrix (c : R) (G : list (list R)) : list (list R) :=
  map (map (Rmult c)) G.

(** Column [j] holds only zeros. *)
Definition zero_column (G : list (list R)) (j : nat) : Prop :=
  List.Forall (fun row => nth j row 0 = 0) G.

(** Every entry is zero. *)
Definition zero_matrix (G : list (list R)) : Prop :=
  List.Forall (List.Forall (fun x => x = 0)) G.

End DistanceWeightsInputs.

(* ===================================================================== *)
(** ** The synthetic block model (notebook cells 2 and 3:
       [midx = int(mesh.nCx/2)], [midy = int(mesh.nCy/2)],
       [model = np.zeros((mesh.nCx,mesh.nCy,mesh.nCz))],
       [model[(midx-2):(midx+2),(midy-2):(midy+2),-6:-2] = 0.02]) *)
(* ===================================================================== *)

Module BlockModel.

Local Open Scope Z_scope.

(** [int(n/2)] for a cell count [n]. *)
Definition mid (n : nat) : Z := Z.of_nat n / 2.

(** How a slice bound is adjusted to an axis of length [n] (step 1): a
    negative bound counts from the end, and the result is clipped to
    [0, n]. *)
Definition adjust (n : Z) (i : Z) : Z :=
  if i <? 0 then (if i + n <? 0 then 0 else i + n)
  else (if n <=? i then n else i).

(** Does index [i] belong to the slice [start:stop] of an axis of length
    [n]? *)
Definition in_slice (n : nat) (s : Z * Z) (i : nat) : bool :=
  (adjust (Z.of_nat n) (fst s) <=? Z.of_nat i) && (Z.of_nat i <? adjust (Z.of_nat n) (snd s)).

(** [len(range(n)[start:stop])] *)
Definition slice_length (n : nat) (s : Z * Z) : Z :=
  Z.max 0 (adjust (Z.of_nat n) (snd s) - adjust (Z.of_nat n) (fst s)).

(** [np.zeros((nx, ny, nz))], as nested lists. *)
Definition np_zeros3 (nx ny nz : nat) : list (list (list R)) :=
  replicate nx (replicate ny (replicate nz 0%R)).

(** [a[sx, sy, sz] = val] on a 3-D array: each axis is sliced against its own
    length. *)
Definition set_slice3 (a : list (list (list R))) (sx sy sz : Z * Z) (val : R)
    : list (list (list R)) :=
  imap (fun i plane =>
          if in_slice (length a) sx i
          then imap (fun j line =>
                       if in_slice (length plane) sy j
                       then imap (fun k x => if in_slice (length line) sz k then val else x) line
                       else line) plane
          else plane) a.

(** [a[i, j, k]] for indices that are not negative. *)
Definition cell (a : list (list (list R))) (i j k : nat) : option R :=
  match a !! i with
  | Some plane =>
      match plane !! j with
      | Some line => line !! k
      | None => None
      end
  | None => None
  end.

(** The 3-D model the notebook builds before flattening it. *)
Definition block_model (nx ny nz : nat) : list (list (list R)) :=
  set_slice3 (np_zeros3 nx ny nz)
             (mid nx - 2, mid nx + 2) (mid ny - 2, mid ny + 2) (-6, -2) 0.02%R.

(** The index box the comment "a simple block" suggests: four cells around
    the centre in x and y, and the four layers [nz-6 .. nz-3] in z. *)
Definition in_centre_block (nx ny nz i j k : nat) : bool :=
  ((nx / 2 - 2 <=? i) && (i <? nx / 2 + 2) &&
   (ny / 2 - 2 <=? j) && (j <? ny / 2 + 2) &&
   (nz - 6 <=? k) && (k <? nz - 2))%nat.

End BlockModel.

(* ===================================================================== *)
(** ** Topography and observation heights (notebook cell 2:
       [zz = -np.exp( ( xx**2 + yy**2 )/ 75**2 ) + mesh.vectorNz[-1]],
       [Z = -np.exp( ( X**2 + Y**2 )/ 75**2 ) + mesh.vectorNz[-1] + 5.]) *)
(* ===================================================================== *)

Module Topography.

Local Open Scope R_scope.

(** One element of [zz]: the surface height at the horizontal position
    [(x, y)], with [top = mesh.vectorNz[-1]] the top of the mesh. *)
Definition topo (top x y : R) : R :=
  - exp ((x * x + y * y) / (75 * 75)) + top.

(** One element of [Z]: the height of the observation point at [(x, y)]. *)
Definition obs_height (top x y : R) : R :=
  - exp ((x * x + y * y) / (75 * 75)) + top + 5.

End Topography.

(* ===================================================================== *)
(** ** The distance weights in binary64 (the same two lines, on the
       arithmetic the arrays have) *)
(* ===================================================================== *)

Module DistanceWeightsBinary64.

(** [G**2.] *)
Definition np_square_f64 (G : list (list float)) : list (list float) :=
  map (map (fun x => PrimFloat.mul x x)) G.

(** [np.sum(A, axis=0)] *)
Definition np_sum_axis0_f64 (ncols : nat) (A : list (list float)) : list float :=
  fold_left (zip_with PrimFloat.add) A (replicate ncols 0%float).

(** The larger of two floats, a [nan] winning over any number. *)
Definition fmax (a b : float) : float :=
  if PrimFloat.is_nan a then a
  else if PrimFloat.is_nan b then b
  else if PrimFloat.ltb a b then b else a.

(** [np.max(v)]: a [ValueError] on an empty array. *)
Definition np_max_f64 (v : list float) : option float :=
  match v with
  | [] => None
  | x :: rest => Some (fold_left fmax rest x)
  end.

(** [wr = np.sum(prob.G**2.,axis=0)**0.5] *)
Definition column_norms_f64 (ncols : nat) (G : list (list float)) : list float :=
  map PrimFloat.sqrt (np_sum_axis0_f64 ncols (np_square_f64 G)).

(** [wr = ( wr/np.max(wr) )] *)
Definition cell_weights_f64 (ncols : nat) (G : list (list float)) : option (list float) :=
  match np_max_f64 (column_norms_f64 ncols G) with
  | None => None
  | Some mx => Some (map (fun w => PrimFloat.div w mx) (column_norms_f64 ncols G))
  end.

End DistanceWeightsBinary64.

(* ===================================================================== *)
(** ** Properties *)
(* ===================================================================== *)

Module ActiveIndexFacts.
Import ActiveIndex.
Local Open Scope Z_scope.

Lemma comprehension_trues_from (xs : list bool) (k : nat) :
  map fst (List.filter snd (enumerate xs (Z.of_nat k + 1))) =
  map (fun i => Z.of_nat i + 1) (trues_from xs k).
Proof.
  revert k; induction xs as [|b rest IH]; intros k; simpl; [reflexivity|].
  replace (Z.of_nat k + 1 + 1) with (Z.of_nat (S k) + 1) by lia.
  destruct b; simpl; rewrite IH; reflexivity.
Qed.

Lemma where_trues_from (xs : list bool) (k : nat) :
  List.filter (fun i => nth (i - k) xs false) (seq k (length xs)) = trues_from xs k.
Proof.
  revert k; induction xs as [|b rest IH]; intros k; simpl; [reflexivity|].
  rewrite Nat.sub_diag.
  assert (Hrest :
    List.filter (fun i => match (i - k)%nat with O => b | S j => nth j rest false end)
                (seq (S k) (length rest)) = trues_from rest (S k)).
  { rewrite <- IH. apply filter_ext_in. intros i Hi.
    apply in_seq in Hi.
    replace (i - k)%nat with (S (i - S k)) by lia. reflexivity. }
  destruct b; rewrite Hrest; reflexivity.
Qed.

Lemma np_where_trues_from (xs : list bool) :
  np_where xs = map Z.of_nat (trues_from xs 0).
Proof.
  unfold np_where. rewrite <- where_trues_from. f_equal.
  apply filter_ext. intros i. rewrite Nat.sub_0_r. reflexivity.
Qed.

Lemma trues_from_bounds (xs : list bool) (k i : nat) :
  In i (trues_from xs k) -> (k <= i < k + length xs)%nat.
Proof.
  revert k; induction xs as [|b rest IH]; intros k; simpl; [tauto|].
  destruct b; simpl; intros H.
  - destruct H as [<- | H]; [lia | apply IH in H; lia].
  - apply IH in H; lia.
Qed.

Lemma trues_from_sorted (xs : list bool) (k : nat) :
  StronglySorted lt (trues_from xs k).
Proof.
  revert k; induction xs as [|b rest IH]; intros k; simpl; [constructor|].
  destruct b; [|apply IH].
  constructor; [apply IH|].
  apply List.Forall_forall. intros i Hi. apply trues_from_bounds in Hi. lia.
Qed.

Lemma StronglySorted_map_of_nat (l : list nat) :
  StronglySorted lt l -> StronglySorted Z.lt (map Z.of_nat l).
Proof.
  induction 1 as [|a l Hs IH Hall]; simpl; constructor; [assumption|].
  rewrite List.Forall_map. eapply List.Forall_impl; [|exact Hall].
  simpl. intros; lia.
Qed.

Lemma np_where_sorted (xs : list bool) : StronglySorted Z.lt (np_where xs).
Proof.
  rewrite np_where_trues_from. apply StronglySorted_map_of_nat, trues_from_sorted.
Qed.

Lemma np_where_spec (xs : list bool) (i : Z) :
  In i (np_where xs) <->
  0 <= i < Z.of_nat (length xs) /\ nth (Z.to_nat i) xs false = true.
Proof.
  unfold np_where. rewrite in_map_iff. split.
  - intros (n & <- & Hn). apply filter_In in Hn. destruct Hn as [Hseq Hnth].
    apply in_seq in Hseq. rewrite Nat2Z.id. split; [lia | exact Hnth].
  - intros [Hr Hnth]. exists (Z.to_nat i). split; [lia|].
    apply filter_In. split; [apply in_seq; lia | exact Hnth].
Qed.

Lemma np_where_range (xs : list bool) (i : Z) :
  In i (np_where xs) -> 0 <= i < Z.of_nat (length xs).
Proof. intros H. apply np_where_spec in H. tauto. Qed.

Lemma wrap64_id (z : Z) : - 2 ^ 63 <= z < 2 ^ 63 -> wrap64 z = z.
Proof.
  intros H. unfold wrap64. rewrite Z.mod_small; lia.
Qed.

Lemma comprehension_eq (actv : list bool) :
  comprehension actv = map (fun i => Z.of_nat i + 1) (trues_from actv 0).
Proof. exact (comprehension_trues_from actv 0). Qed.

(** Whenever the expression evaluates, its value is [np_where]. *)
Lemma actv_indices_sound (mask : list bool) (actv : list Z) :
  actv_indices mask = Some actv -> actv = np_where mask.
Proof.
  unfold actv_indices, np_asarray_int. rewrite comprehension_eq.
  destruct (forallb in_int64 _) eqn:Hfit; [|discriminate].
  intros [= <-]. rewrite np_where_trues_from.
  unfold np_sub_scalar. rewrite map_map. apply map_ext_in.
  intros n Hn.
  rewrite forallb_forall in Hfit.
  specialize (Hfit (Z.of_nat n + 1) (in_map _ _ _ Hn)).
  unfold in_int64, int64_min, int64_max in Hfit.
  apply andb_true_iff in Hfit. destruct Hfit as [_ Hhi]. apply Z.leb_le in Hhi.
  rewrite wrap64_id; lia.
Qed.

(** It evaluates on every array whose length fits a 64-bit index. *)
Lemma actv_indices_defined (mask : list bool) :
  Z.of_nat (length mask) < 2 ^ 63 -> exists actv, actv_indices mask = Some actv.
Proof.
  intros Hlen. unfold actv_indices, np_asarray_int. rewrite comprehension_eq.
  assert (Hfit : forallb in_int64 (map (fun i => Z.of_nat i + 1) (trues_from mask 0)) = true).
  { apply forallb_forall. intros z Hz. apply in_map_iff in Hz.
    destruct Hz as (n & <- & Hn). apply trues_from_bounds in Hn.
    unfold in_int64, int64_min, int64_max. apply andb_true_iff. split; apply Z.leb_le; lia. }
  rewrite Hfit. eexists; reflexivity.
Qed.

(** C10.  For every boolean array [actv] (of a length a 64-bit index can
    address), the notebook's expression
    [np.asarray([inds for inds, elem in enumerate(actv, 1) if elem], dtype=int) - 1]
    evaluates, without error, to [np.where(actv)[0]]: the zero-based indices of
    the [True] entries, in strictly ascending order. *)
Theorem actv_indices_eq_np_where (actv : list bool) :
  Z.of_nat (length actv) < 2 ^ 63 ->
  actv_indices actv = Some (np_where actv) /\
  StronglySorted Z.lt (np_where actv) /\
  (forall i : Z, In i (np_where actv) <->
     0 <= i < Z.of_nat (length actv) /\ nth (Z.to_nat i) actv false = true).
Proof.
  intros Hlen. split; [|split; [apply np_where_sorted | apply np_where_spec]].
  destruct (actv_indices_defined actv Hlen) as [idx Hidx].
  rewrite Hidx. f_equal. apply actv_indices_sound, Hidx.
Qed.

(** Witness of C10 on the mask [False, True, True, False, True]. *)
Lemma actv_indices_eq_np_where_witness :
  actv_indices [false; true; true; false; true] = Some [1; 2; 4].
Proof.
  exact (proj1 (actv_indices_eq_np_where [false; true; true; false; true] eq_refl)).
Defined.

End ActiveIndexFacts.

Module ActiveMapFacts.
Import ActiveIndex ActiveMap ActiveIndexFacts.

Lemma scatter_length (full : list R) (idx : list Z) (m : list R) :
  length (scatter full idx m) = length full.
Proof.
  revert full m; induction idx as [|i idx IH]; intros full [|x m]; simpl; try reflexivity.
  rewrite IH. apply length_insert.
Qed.

Lemma scatter_lookup_other (full : list R) (idx : list Z) (m : list R) (j : nat) :
  (forall i, In i idx -> Z.to_nat i <> j) ->
  scatter full idx m !! j = full !! j.
Proof.
  revert full m; induction idx as [|i idx IH]; intros full [|x m] Hj; simpl; try reflexivity.
  rewrite IH by (intros i' Hi'; apply Hj; right; exact Hi').
  apply list_lookup_insert_ne. apply Hj. left; reflexivity.
Qed.

Lemma scatter_lookup_hit (full : list R) (idx : list Z) (m : list R)
      (k : nat) (i : Z) (x : R) :
  List.NoDup (map Z.to_nat idx) ->
  (forall i', In i' idx -> (Z.to_nat i' < length full)%nat) ->
  idx !! k = Some i -> m !! k = Some x ->
  scatter full idx m !! Z.to_nat i = Some x.
Proof.
  revert full m k; induction idx as [|i0 idx IH]; intros full m k Hnd Hin Hi Hx.
  - discriminate.
  - destruct m as [|x0 m]; [destruct k; discriminate|].
    simpl in Hnd. apply List.NoDup_cons_iff in Hnd. destruct Hnd as [Hnotin Hnd].
    destruct k as [|k]; simpl in *.
    + injection Hi as ->. injection Hx as ->.
      rewrite scatter_lookup_other.
      * apply list_lookup_insert_eq. apply Hin. left; reflexivity.
      * intros i' Hi' Heq. apply Hnotin. rewrite <- Heq. apply in_map. exact Hi'.
    + apply (IH _ _ k); try assumption.
      intros i' Hi'. rewrite length_insert. apply Hin. right; exact Hi'.
Qed.

Lemma np_index_in_range {A : Type} (v : list A) (i : Z) :
  (0 <= i < Z.of_nat (length v))%Z -> np_index v i = v !! Z.to_nat i.
Proof.
  intros H. unfold np_index.
  destruct (Z.leb_spec 0 i); [|lia]. destruct (Z.ltb_spec i (Z.of_nat (length v))); [|lia].
  reflexivity.
Qed.

Lemma np_take_pointwise {A : Type} (v : list A) (idx : list Z) (m : list A) :
  length m = length idx ->
  (forall k i x, idx !! k = Some i -> m !! k = Some x -> np_index v i = Some x) ->
  np_take v idx = Some m.
Proof.
  revert m; induction idx as [|i idx IH]; intros [|x m] Hlen H; simpl in *; try discriminate.
  - reflexivity.
  - rewrite (H 0%nat i x eq_refl eq_refl).
    rewrite (IH m); [reflexivity | lia |].
    intros k i' x' Hi' Hx'. apply (H (S k)); assumption.
Qed.

Lemma StronglySorted_lt_NoDup (l : list nat) : StronglySorted lt l -> List.NoDup l.
Proof.
  induction 1 as [|a l Hs IH Hall]; constructor; [|assumption].
  intros Hin. rewrite List.Forall_forall in Hall. specialize (Hall a Hin). lia.
Qed.

Lemma np_where_to_nat_NoDup (mask : list bool) :
  List.NoDup (map Z.to_nat (np_where mask)).
Proof.
  rewrite np_where_trues_from, map_map.
  rewrite (map_ext _ (fun n => n)) by (intros; apply Nat2Z.id).
  rewrite map_id. apply StronglySorted_lt_NoDup, trues_from_sorted.
Qed.

Lemma np_where_in_mesh (mask : list bool) :
  forallb (index_in_mesh (length mask)) (np_where mask) = true.
Proof.
  apply forallb_forall. intros i Hi. apply np_where_range in Hi.
  unfold index_in_mesh. apply andb_true_iff. split; [apply Z.leb_le | apply Z.ltb_lt]; lia.
Qed.

(** C7.  With the active index array the notebook computes from a mask and
    the sentinel [-100], mapping a reduced vector [m] to full-mesh space
    succeeds, gives every inactive cell the value [-100], copies each active
    value to its cell, and is inverted by restricting to the active indices
    ([full[actv] = m]); hence no other reduced vector has the same image. *)
Theorem inject_restrict_roundtrip (mask : list bool) (actv : list Z) (m : list R) :
  actv_indices mask = Some actv ->
  length m = length actv ->
  exists full : list R,
    transform (notebook_actvMap mask actv) m = Some full /\
    length full = length mask /\
    (forall i : nat, (i < length mask)%nat -> nth i mask false = false ->
       full !! i = Some (-100)%R) /\
    (forall (k : nat) (i : Z) (x : R),
       actv !! k = Some i -> m !! k = Some x -> full !! Z.to_nat i = Some x) /\
    np_take full actv = Some m /\
    (forall m' : list R,
       transform (notebook_actvMap mask actv) m' = Some full -> m' = m).
Proof.
  intros Hactv Hlen. apply actv_indices_sound in Hactv. subst actv.
  set (full := scatter (replicate (length mask) (-100)%R) (np_where mask) m).
  assert (Hin : forall i', In i' (np_where mask) ->
                  (Z.to_nat i' < length (replicate (length mask) (-100)%R))%nat).
  { intros i' Hi'. apply np_where_range in Hi'. rewrite length_replicate. lia. }
  assert (Hcopy : forall m0 (k : nat) (i : Z) (x : R),
            np_where mask !! k = Some i -> m0 !! k = Some x ->
            scatter (replicate (length mask) (-100)%R) (np_where mask) m0 !! Z.to_nat i
            = Some x).
  { intros m0 k i x Hi Hx.
    eapply scatter_lookup_hit; eauto using np_where_to_nat_NoDup. }
  assert (Htake : forall m0, length m0 = length (np_where mask) ->
            np_take (scatter (replicate (length mask) (-100)%R) (np_where mask) m0)
                    (np_where mask) = Some m0).
  { intros m0 Hlen0. apply np_take_pointwise; [exact Hlen0|].
    intros k i x Hi Hx. rewrite np_index_in_range.
    - eapply Hcopy; eauto.
    - rewrite scatter_length, length_replicate.
      apply np_where_range. eapply list_elem_of_In, list_elem_of_lookup_2, Hi. }
  assert (Htr : forall m0, length m0 = length (np_where mask) ->
            transform (notebook_actvMap mask (np_where mask)) m0 =
            Some (scatter (replicate (length mask) (-100)%R) (np_where mask) m0)).
  { intros m0 Hlen0. unfold transform, notebook_actvMap; simpl.
    rewrite Hlen0, Nat.eqb_refl, np_where_in_mesh. reflexivity. }
  exists full. repeat split.
  - apply Htr, Hlen.
  - unfold full. rewrite scatter_length. apply length_replicate.
  - intros i Hi Hoff. unfold full. rewrite scatter_lookup_other.
    + apply lookup_replicate_2. exact Hi.
    + intros i' Hi' Heq. apply np_where_spec in Hi'. destruct Hi' as [_ Hon].
      rewrite Heq in Hon. congruence.
  - intros k i x. apply Hcopy.
  - apply Htake, Hlen.
  - intros m' Hm'.
    assert (Hlen' : length m' = length (np_where mask)).
    { unfold transform, notebook_actvMap in Hm'; simpl in Hm'.
      destruct (length m' =? length (np_where mask))%nat eqn:E; [|discriminate].
      apply Nat.eqb_eq. exact E. }
    rewrite (Htr m' Hlen') in Hm'. injection Hm' as Hm'.
    pose proof (Htake m' Hlen') as H1. rewrite Hm' in H1.
    pose proof (Htake m Hlen) as H2. fold full in H2. congruence.
Qed.

(** Witness of C7: a three-cell mesh whose middle cell is inactive. *)
Lemma inject_restrict_roundtrip_witness :
  exists full : list R,
    transform (notebook_actvMap [true; false; true] [0%Z; 2%Z]) [0.02%R; 0%R] = Some full /\
    length full = 3%nat /\
    (forall i : nat, (i < 3)%nat -> nth i [true; false; true] false = false ->
       full !! i = Some (-100)%R) /\
    (forall (k : nat) (i : Z) (x : R),
       [0%Z; 2%Z] !! k = Some i -> [0.02%R; 0%R] !! k = Some x ->
       full !! Z.to_nat i = Some x) /\
    np_take full [0%Z; 2%Z] = Some [0.02%R; 0%R] /\
    (forall m' : list R,
       transform (notebook_actvMap [true; false; true] [0%Z; 2%Z]) m' = Some full ->
       m' = [0.02%R; 0%R]).
Proof.
  apply (inject_restrict_roundtrip [true; false; true] [0%Z; 2%Z] [0.02%R; 0%R]);
    reflexivity.
Defined.

End ActiveMapFacts.

Module DistanceWeightsFacts.
Import NP DistanceWeights.
Local Open Scope R_scope.

Lemma sum_rows_length (A : list (list R)) (acc : list R) :
  List.Forall (fun row => length row = length acc) A ->
  length (fold_left (zip_with Rplus) A acc) = length acc.
Proof.
  revert acc; induction A as [|row A IH]; intros acc Hsh; simpl; [reflexivity|].
  inversion Hsh as [|? ? Hrow HA]; subst.
  assert (Hl : length (zip_with Rplus acc row) = length acc)
    by (apply length_zip_with_l_eq; symmetry; exact Hrow).
  rewrite IH; [exact Hl|].
  eapply List.Forall_impl; [|exact HA]. simpl. intros r Hr. congruence.
Qed.

Lemma sum_rows_lookup (A : list (list R)) (acc : list R) (j : nat) (a : R) :
  List.Forall (fun row => length row = length acc) A ->
  acc !! j = Some a ->
  fold_left (zip_with Rplus) A acc !! j =
  Some (fold_left (fun s row => s + nth j row 0) A a).
Proof.
  revert acc a; induction A as [|row A IH]; intros acc a Hsh Hj; simpl; [exact Hj|].
  inversion Hsh as [|? ? Hrow HA]; subst.
  assert (Hl : length (zip_with Rplus acc row) = length acc)
    by (apply length_zip_with_l_eq; symmetry; exact Hrow).
  apply IH.
  - eapply List.Forall_impl; [|exact HA]. simpl. intros r Hr. congruence.
  - rewrite lookup_zip_with, Hj. simpl.
    destruct (lookup_lt_is_Some_2 row j) as [x Hx].
    { rewrite Hrow. eapply lookup_lt_Some, Hj. }
    rewrite Hx. simpl. rewrite (nth_lookup_Some _ _ _ _ Hx). reflexivity.
Qed.

Lemma sumsq_map_square (G : list (list R)) (j : nat) (a : R) :
  fold_left (fun s row => s + nth j row 0) (np_square G) a =
  fold_left (fun s row => s + nth j row 0 * nth j row 0) G a.
Proof.
  revert a; induction G as [|row G IH]; intros a; simpl; [reflexivity|].
  rewrite IH. f_equal. f_equal.
  replace 0 with (0 * 0) at 1 by lra.
  exact (map_nth (fun x => x * x) row 0 j).
Qed.

Lemma np_square_shape (ncols : nat) (G : list (list R)) :
  has_shape ncols G -> has_shape ncols (np_square G).
Proof.
  unfold has_shape, np_square. intros H. rewrite List.Forall_map.
  eapply List.Forall_impl; [|exact H]. simpl. intros row Hrow.
  rewrite length_map. exact Hrow.
Qed.

(** [np.sum(G**2., axis=0)**0.5] is the vector of column-wise L2 norms. *)
Lemma column_norms_col_l2 (ncols : nat) (G : list (list R)) :
  has_shape ncols G ->
  column_norms ncols G = map (col_l2 G) (seq 0 ncols).
Proof.
  intros Hsh. apply np_square_shape in Hsh.
  assert (Hsh' : List.Forall (fun row => length row = length (replicate ncols 0)) (np_square G)).
  { eapply List.Forall_impl; [|exact Hsh]. simpl. intros row Hrow.
    rewrite length_replicate. exact Hrow. }
  apply list_eq. intros j. unfold column_norms, np_sqrt, np_sum_axis0.
  change (map sqrt ?l) with (sqrt <$> l).
  change (map (col_l2 G) ?l) with (col_l2 G <$> l).
  rewrite !list_lookup_fmap.
  destruct (Nat.lt_ge_cases j ncols) as [Hlt | Hge].
  - rewrite (sum_rows_lookup _ _ j 0 Hsh') by (apply lookup_replicate_2; exact Hlt).
    rewrite lookup_seq_lt by exact Hlt. simpl.
    rewrite sumsq_map_square. reflexivity.
  - rewrite lookup_seq_ge by exact Hge.
    rewrite (lookup_ge_None_2 (fold_left _ _ _)); [reflexivity|].
    rewrite sum_rows_length by exact Hsh'. rewrite length_replicate. exact Hge.
Qed.

Lemma sumsq_ge (G : list (list R)) (j : nat) (a : R) :
  a <= fold_left (fun s row => s + nth j row 0 * nth j row 0) G a.
Proof.
  revert a; induction G as [|row G IH]; intros a; simpl; [lra|].
  eapply Rle_trans; [|apply IH]. nra.
Qed.

Lemma sumsq_ge_entry (G : list (list R)) (j : nat) (a : R) (row : list R) :
  In row G ->
  a + nth j row 0 * nth j row 0 <=
  fold_left (fun s row => s + nth j row 0 * nth j row 0) G a.
Proof.
  revert a; induction G as [|row0 G IH]; intros a Hin; simpl; [destruct Hin|].
  destruct Hin as [-> | Hin].
  - apply sumsq_ge.
  - eapply Rle_trans; [|apply IH; exact Hin]. nra.
Qed.

Lemma col_l2_nonneg (G : list (list R)) (j : nat) : 0 <= col_l2 G j.
Proof. apply sqrt_pos. Qed.

Lemma col_l2_pos (G : list (list R)) (j : nat) (row : list R) :
  In row G -> nth j row 0 <> 0 -> 0 < col_l2 G j.
Proof.
  intros Hin Hnz. apply sqrt_lt_R0.
  eapply Rlt_le_trans; [|apply (sumsq_ge_entry G j 0 row Hin)]. nra.
Qed.

Lemma fold_Rmax_ge_init (l : list R) (x : R) : x <= fold_left Rmax l x.
Proof.
  revert x; induction l as [|y l IH]; intros x; simpl; [lra|].
  eapply Rle_trans; [apply Rmax_l | apply IH].
Qed.

Lemma fold_Rmax_upper (l : list R) (x w : R) :
  In w l -> w <= fold_left Rmax l x.
Proof.
  revert x; induction l as [|y l IH]; intros x Hin; simpl; [destruct Hin|].
  destruct Hin as [-> | Hin]; [|apply IH; exact Hin].
  eapply Rle_trans; [apply Rmax_r | apply fold_Rmax_ge_init].
Qed.

Lemma fold_Rmax_attained (l : list R) (x : R) :
  fold_left Rmax l x = x \/ In (fold_left Rmax l x) l.
Proof.
  revert x; induction l as [|y l IH]; intros x; simpl; [left; reflexivity|].
  destruct (IH (Rmax x y)) as [H | H]; [|right; right; exact H].
  rewrite H. unfold Rmax. destruct (Rle_dec x y); [right; left | left]; reflexivity.
Qed.

Lemma np_max_spec (v : list R) (mx : R) :
  np_max v = Some mx -> In mx v /\ (forall w, In w v -> w <= mx).
Proof.
  destruct v as [|x rest]; simpl; [discriminate|]. intros [= <-]. split.
  - destruct (fold_Rmax_attained rest x) as [H | H]; [left; symmetry; exact H | right; exact H].
  - intros w [<- | Hw]; [apply fold_Rmax_ge_init | apply fold_Rmax_upper; exact Hw].
Qed.

Lemma np_div_finite (x y : R) : y <> 0 -> np_div x y = Fin (x / y).
Proof. intros Hy. unfold np_div. destruct (Req_EM_T y 0); [contradiction | reflexivity]. Qed.

Lemma np_div_zero_zero : np_div 0 0 = NaN.
Proof.
  unfold np_div. destruct (Req_EM_T 0 0) as [_ | Hne]; [reflexivity | contradiction].
Qed.

(** C5 (amended).  In exact real arithmetic, for a sensitivity matrix of
    shape [(_, ncols)] with at least one non-zero entry, the two lines of the
    notebook compute [wr[j] = ||G[:,j]||_2 / max_j ||G[:,j]||_2]; every
    component lies in [0,1] and at least one equals exactly 1. *)
Theorem cell_weights_unit_normalised (ncols : nat) (G : list (list R)) :
  has_shape ncols G -> has_nonzero_entry G ->
  exists mx : R,
    np_max (map (col_l2 G) (seq 0 ncols)) = Some mx /\ 0 < mx /\
    cell_weights ncols G = Some (map (fun j => Fin (col_l2 G j / mx)) (seq 0 ncols)) /\
    unit_normalised (cell_weights ncols G).
Proof.
  intros Hsh (row & x & Hrow & Hx & Hnz).
  assert (Hlen : length row = ncols).
  { unfold has_shape in Hsh. rewrite List.Forall_forall in Hsh. exact (Hsh row Hrow). }
  destruct (In_nth row x 0 Hx) as (j & Hj & Hnth).
  assert (Hpos : 0 < col_l2 G j) by (apply (col_l2_pos G j row Hrow); rewrite Hnth; exact Hnz).
  assert (Hjin : In (col_l2 G j) (map (col_l2 G) (seq 0 ncols))).
  { apply in_map, in_seq. lia. }
  destruct (np_max (map (col_l2 G) (seq 0 ncols))) as [mx|] eqn:Hmax.
  2:{ destruct (map (col_l2 G) (seq 0 ncols)); [destruct Hjin | discriminate]. }
  destruct (np_max_spec _ _ Hmax) as [Hmem Hub].
  assert (Hmx : 0 < mx) by (eapply Rlt_le_trans; [exact Hpos | apply Hub, Hjin]).
  assert (Hcw : cell_weights ncols G =
                Some (map (fun j => Fin (col_l2 G j / mx)) (seq 0 ncols))).
  { unfold cell_weights, normalise. rewrite (column_norms_col_l2 _ _ Hsh), Hmax.
    f_equal. rewrite map_map. apply map_ext. intros k. apply np_div_finite. lra. }
  exists mx. split; [reflexivity|]. split; [exact Hmx|]. split; [exact Hcw|].
  exists (map (fun j => Fin (col_l2 G j / mx)) (seq 0 ncols)).
  split; [exact Hcw|]. split.
  - rewrite List.Forall_map. apply List.Forall_forall. intros k Hk. simpl.
    pose proof (col_l2_nonneg G k) as H0.
    assert (Hle : col_l2 G k <= mx) by (apply Hub, in_map, Hk).
    split.
    + apply Rmult_le_pos; [exact H0 | left; apply Rinv_0_lt_compat; exact Hmx].
    + apply (Rmult_le_reg_r mx); [exact Hmx|]. field_simplify; lra.
  - apply in_map_iff in Hmem. destruct Hmem as (k & Hk & Hkin).
    apply List.Exists_exists. exists (Fin (col_l2 G k / mx)). split.
    + apply (in_map (fun j => Fin (col_l2 G j / mx))). exact Hkin.
    + rewrite Hk. f_equal. field. lra.
Qed.

(** Witness of C5: [G = [[3, 0], [4, 0]]], whose column norms are [5, 0]. *)
Lemma cell_weights_unit_normalised_witness :
  exists mx : R,
    np_max (map (col_l2 [[3; 0]; [4; 0]]) (seq 0 2)) = Some mx /\ 0 < mx /\
    cell_weights 2 [[3; 0]; [4; 0]] =
      Some (map (fun j => Fin (col_l2 [[3; 0]; [4; 0]] j / mx)) (seq 0 2)) /\
    unit_normalised (cell_weights 2 [[3; 0]; [4; 0]]).
Proof.
  apply (cell_weights_unit_normalised 2 [[3; 0]; [4; 0]]).
  - repeat constructor.
  - exists [3; 0], 3. simpl. repeat split; [left; reflexivity | left; reflexivity | lra].
Defined.

(** C5 as stated fails on the all-zero [1 x 1] matrix: the only column norm
    is [0], its maximum is [0], and [0/0] is [nan]. *)
Lemma cell_weights_zero_matrix_counterexample :
  has_shape 1 [[0]] /\
  cell_weights 1 [[0]] = Some [NaN] /\
  ~ unit_normalised (cell_weights 1 [[0]]).
Proof.
  assert (Hcw : cell_weights 1 [[0]] = Some [NaN]).
  { unfold cell_weights, normalise, column_norms, np_sqrt, np_sum_axis0, np_square.
    simpl. replace (0 + 0 * 0) with 0 by lra. rewrite sqrt_0.
    rewrite np_div_zero_zero. reflexivity. }
  split; [repeat constructor|]. split; [exact Hcw|].
  rewrite Hcw. intros (wr & Heq & Hall & _).
  injection Heq as <-. inversion Hall as [|? ? Hnan _]. exact Hnan.
Qed.

End DistanceWeightsFacts.

Module ForwardFacts.
Import Forward.
Local Open Scope R_scope.

Lemma dot_acc_add (row m1 m2 : list R) (a b : R) :
  length m1 = length m2 ->
  fold_left Rplus (zip_with Rmult row (zip_with Rplus m1 m2)) (a + b) =
  fold_left Rplus (zip_with Rmult row m1) a + fold_left Rplus (zip_with Rmult row m2) b.
Proof.
  revert m1 m2 a b; induction row as [|g row IH]; intros m1 m2 a b Hlen; simpl; [reflexivity|].
  destruct m1 as [|x m1], m2 as [|y m2]; simpl in *; try discriminate; [reflexivity|].
  rewrite <- IH by lia. f_equal. lra.
Qed.

Lemma dot_vadd (row m1 m2 : list R) :
  length m1 = length m2 ->
  dot row (vadd m1 m2) = dot row m1 + dot row m2.
Proof.
  intros Hlen. unfold dot, vadd; simpl.
  rewrite <- (dot_acc_add row m1 m2 0 0 Hlen). f_equal. lra.
Qed.

Lemma matvec_cons {T : Type} `{Scalar T} (row : list T) (A : list (list T)) (m : list T) :
  matvec (row :: A) m = dot row m :: matvec A m.
Proof. reflexivity. Qed.

Lemma matvec_vadd (A : list (list R)) (m1 m2 : list R) :
  length m1 = length m2 ->
  matvec A (vadd m1 m2) = vadd (matvec A m1) (matvec A m2).
Proof.
  intros Hlen. induction A as [|row A IH]; [reflexivity|].
  rewrite !matvec_cons, IH, dot_vadd by exact Hlen. reflexivity.
Qed.

Lemma fields_defined {T : Type} `{Scalar T} (Gm : list (list T)) (nC : nat) (m : list T) :
  length m = nC -> fields (notebook_prob Gm nC) m = Some (matvec Gm m).
Proof.
  intros Hlen. unfold fields, notebook_prob, IdentityMap; simpl.
  rewrite Hlen, Nat.eqb_refl. reflexivity.
Qed.

(** C1 (amended).  Over the real numbers the forward map is linear: for model
    vectors [m1], [m2] of length [numActiveCells], [fields (m1 + m2)] is
    [fields m1 + fields m2], and [fields m] is the matrix-vector product
    [G·m]. *)
Theorem fields_linear_over_R (Gm : list (list R)) (nC : nat) (m1 m2 : list R) :
  length m1 = nC -> length m2 = nC ->
  let prob := notebook_prob Gm nC in
  exists d1 d2 : list R,
    fields prob m1 = Some d1 /\ d1 = matvec Gm m1 /\
    fields prob m2 = Some d2 /\ d2 = matvec Gm m2 /\
    fields prob (vadd m1 m2) = Some (vadd d1 d2).
Proof.
  intros H1 H2 prob. exists (matvec Gm m1), (matvec Gm m2).
  repeat split; try (apply fields_defined; assumption).
  unfold prob. rewrite fields_defined.
  - f_equal. apply matvec_vadd. congruence.
  - unfold vadd. rewrite length_zip_with_l_eq; congruence.
Qed.

(** Witness of C1: two receivers, two cells. *)
Lemma fields_linear_over_R_witness :
  exists d1 d2 : list R,
    fields (notebook_prob [[1; 2]; [3; 4]] 2) [1; 0] = Some d1 /\
    d1 = matvec [[1; 2]; [3; 4]] [1; 0] /\
    fields (notebook_prob [[1; 2]; [3; 4]] 2) [0; 1] = Some d2 /\
    d2 = matvec [[1; 2]; [3; 4]] [0; 1] /\
    fields (notebook_prob [[1; 2]; [3; 4]] 2) (vadd [1; 0] [0; 1]) = Some (vadd d1 d2).
Proof.
  apply (fields_linear_over_R [[1; 2]; [3; 4]] 2 [1; 0] [0; 1]); reflexivity.
Defined.

(** C1 as stated fails in the binary64 arithmetic of the arrays: with
    [G = [[0.1]]], [m1 = [0.7]] and [m2 = [0.1]] both sides are computed
    without error and differ. *)
Lemma fields_not_additive_in_binary64 :
  exists d12 d1 d2 : list float,
    fields prob_1x1 (vadd [0.7%float] [0.1%float]) = Some d12 /\
    fields prob_1x1 [0.7%float] = Some d1 /\
    fields prob_1x1 [0.1%float] = Some d2 /\
    array_equal d12 (vadd d1 d2) = false.
Proof.
  do 3 eexists. repeat split; vm_compute; reflexivity.
Qed.

End ForwardFacts.

Module InversionFacts.
Import Inversion.
Local Open Scope R_scope.

Section RunFacts.
Variable opt : ProjectedGNCG.
Variable D : Type.
Variable pre_iteration : D -> list R -> D.
Variable post_iteration : D -> list R -> D.
Variable directives_converged : D -> bool.
Variable gn_step : D -> list R -> list R.
Variable sufficient_decrease : D -> list R -> list R -> bool.
Variable tolerances_met : D -> list R -> list R -> bool.

Hypothesis bounds_ordered : lower opt <= upper opt.

Abbreviation box := (in_box (lower opt) (upper opt)).
Abbreviation step' :=
  (step opt D pre_iteration post_iteration gn_step sufficient_decrease).
Abbreviation stops' :=
  (stops opt D pre_iteration post_iteration directives_converged gn_step
         sufficient_decrease tolerances_met).
Abbreviation loop' :=
  (loop opt D pre_iteration post_iteration directives_converged gn_step
        sufficient_decrease tolerances_met).

Lemma clip_in_bounds (x : R) : lower opt <= clip opt x <= upper opt.
Proof using bounds_ordered.
  unfold clip, Rmax, Rmin.
  destruct (Rle_dec (upper opt) x); destruct (Rle_dec (lower opt) _); lra.
Qed.

Lemma convex_in_bounds (x c t : R) :
  lower opt <= x <= upper opt -> lower opt <= c <= upper opt -> 0 <= t <= 1 ->
  lower opt <= x + t * (c - x) <= upper opt.
Proof. intros Hx Hc Ht. split; nra. Qed.

Lemma along_projected_step_in_box (m dm : list R) (t : R) :
  0 <= t <= 1 -> box m ->
  box (along m t (step_from (project opt (step_to m dm)) m)).
Proof using bounds_ordered.
  intros Ht. revert dm; induction m as [|x m IH]; intros dm Hm; [constructor|].
  destruct dm as [|y dm]; [constructor|].
  inversion Hm as [|? ? Hx Hm']; subst.
  unfold along, step_from, project, step_to; simpl. constructor.
  - apply convex_in_bounds; [exact Hx | apply clip_in_bounds | exact Ht].
  - apply IH. exact Hm'.
Qed.

Lemma linesearch_in_box (trials : nat) (t : R) (d : D) (m dm xt : list R) :
  0 <= t <= 1 -> box m ->
  linesearch D sufficient_decrease trials t d m
             (step_from (project opt (step_to m dm)) m) = Some xt ->
  box xt.
Proof using bounds_ordered.
  revert t; induction trials as [|n IH]; intros t Ht Hm; simpl; [discriminate|].
  destruct (sufficient_decrease d m _).
  - intros [= <-]. apply along_projected_step_in_box; assumption.
  - apply IH; [lra | exact Hm].
Qed.

Lemma outer_iteration_in_box (d : D) (m : list R) :
  box m -> box (outer_iteration opt D gn_step sufficient_decrease d m).
Proof using bounds_ordered.
  intros Hm. unfold outer_iteration.
  destruct (linesearch _ _ _ _ _ _ _) as [xt|] eqn:E; [|exact Hm].
  eapply linesearch_in_box; [|exact Hm|exact E]. lra.
Qed.

Lemma step_in_box (s : D * list R) : box (snd s) -> box (snd (step' s)).
Proof using bounds_ordered. intros Hs. apply outer_iteration_in_box, Hs. Qed.

Lemma iter_step_in_box (k : nat) (s : D * list R) :
  box (snd s) -> box (snd (Nat.iter k step' s)).
Proof using bounds_ordered.
  intros Hs. induction k as [|k IH]; [exact Hs|]. apply step_in_box, IH.
Qed.

Lemma loop_in_box (budget k : nat) (s : D * list R) :
  box (snd s) -> box (model (loop' budget k s)).
Proof using bounds_ordered.
  revert k s; induction budget as [|b IH]; intros k s Hs; simpl; [exact Hs|].
  destruct (stops' s); simpl.
  - apply step_in_box, Hs.
  - apply IH, step_in_box, Hs.
Qed.
End RunFacts.



Lemma outer_iteration_from_two :
  outer_iteration notebook_opt unit (fun _ m => m) accepts_above_one tt [2] = [3 / 2].
Proof.
  assert (Hclip : clip notebook_opt (2 + 2) = 1).
  { unfold clip, Rmax, Rmin.
    change (upper notebook_opt) with 1. change (lower notebook_opt) with 0.
    destruct (Rle_dec 1 (2 + 2)); [|lra]. destruct (Rle_dec 0 1); lra. }
  unfold outer_iteration, project, step_to, step_from.
  change (maxIterLS notebook_opt) with (S (S 18)).
  cbn [zip_with map]. rewrite Hclip.
  cbn [linesearch along zip_with accepts_above_one].
  destruct (Rle_dec (2 + 1 * (1 - 2)) 1); [|lra].
  destruct (Rle_dec (2 + 1 / 2 * (1 - 2)) 1); [lra|].
  f_equal. lra.
Qed.


End InversionFacts.

Module ActiveCellsFacts.
Import ActiveIndex ActiveMap ActiveCells ActiveIndexFacts ActiveMapFacts.

Lemma trues_from_length (xs : list bool) (k : nat) :
  length (trues_from xs k) = count_true xs.
Proof.
  unfold count_true. revert k; induction xs as [|b xs IH]; intros k; [reflexivity|].
  destruct b; simpl; rewrite IH; reflexivity.
Qed.

Lemma count_true_le (xs : list bool) : (count_true xs <= length xs)%nat.
Proof.
  unfold count_true. induction xs as [|b xs IH]; simpl; [lia|].
  destruct b; simpl; lia.
Qed.

(** X1.  The number of active cells [nC = len(actv)] is the number of [True]
    entries of the mask, and never exceeds the number of mesh cells. *)
Theorem active_count (mask : list bool) (actv : list Z) :
  actv_indices mask = Some actv ->
  length actv = count_true mask /\ (length actv <= length mask)%nat.
Proof.
  intros H. apply actv_indices_sound in H. subst actv.
  rewrite np_where_trues_from, length_map, trues_from_length.
  split; [reflexivity | apply count_true_le].
Qed.

(** Witness of X1. *)
Lemma active_count_witness :
  length [1%Z; 2%Z; 4%Z] = count_true [false; true; true; false; true] /\
  (length [1%Z; 2%Z; 4%Z] <= length [false; true; true; false; true])%nat.
Proof.
  apply (active_count [false; true; true; false; true] [1%Z; 2%Z; 4%Z]). reflexivity.
Defined.

Lemma np_take_trues_from {A : Type} (mask : list bool) (pre rest : list A) :
  (length mask <= length rest)%nat ->
  np_take (pre ++ rest) (map Z.of_nat (trues_from mask (length pre))) =
  Some (compress mask rest).
Proof.
  revert pre rest; induction mask as [|b mask IH]; intros pre rest Hlen; [reflexivity|].
  destruct rest as [|x rest]; [simpl in Hlen; lia|].
  assert (Hshift : pre ++ x :: rest = (pre ++ [x]) ++ rest)
    by (rewrite <- app_assoc; reflexivity).
  assert (Hsucc : S (length pre) = length (pre ++ [x]))
    by (rewrite length_app; simpl; lia).
  assert (Hrest : np_take (pre ++ x :: rest)
                    (map Z.of_nat (trues_from mask (S (length pre)))) =
                  Some (compress mask rest)).
  { rewrite Hshift, Hsucc. apply IH. simpl in Hlen. lia. }
  destruct b; simpl; [|exact Hrest].
  rewrite Hrest. rewrite np_index_in_range.
  - rewrite Nat2Z.id, lookup_app_r by lia.
    rewrite Nat.sub_diag. reflexivity.
  - rewrite length_app; simpl. lia.
Qed.

(** X2.  Restricting a full-mesh vector with the index array,
    [model[actv]], never raises when the vector has (at least) one entry per
    mask entry, and selects exactly the entries at the [True] positions of the
    mask, in order. *)
Theorem restriction_is_mask_selection {A : Type}
    (mask : list bool) (actv : list Z) (v : list A) :
  actv_indices mask = Some actv ->
  (length mask <= length v)%nat ->
  np_take v actv = Some (compress mask v).
Proof.
  intros H Hlen. apply actv_indices_sound in H. subst actv.
  rewrite np_where_trues_from.
  exact (np_take_trues_from mask [] v Hlen).
Qed.

(** Witness of X2. *)
Lemma restriction_is_mask_selection_witness :
  np_take [10%Z; 11%Z; 12%Z] [0%Z; 2%Z] = Some (compress [true; false; true] [10%Z; 11%Z; 12%Z]).
Proof.
  apply (restriction_is_mask_selection [true; false; true] [0%Z; 2%Z] [10%Z; 11%Z; 12%Z]).
  - reflexivity.
  - simpl. lia.
Defined.

Lemma trues_from_all_true (n k : nat) : trues_from (replicate n true) k = seq k n.
Proof.
  revert k; induction n as [|n IH]; intros k; simpl; [reflexivity|].
  rewrite IH. reflexivity.
Qed.

Lemma compress_all_true {A : Type} (v : list A) :
  compress (replicate (length v) true) v = v.
Proof.
  induction v as [|x v IH]; simpl; [reflexivity|]. rewrite IH. reflexivity.
Qed.

(** X3.  When every cell is active the index expression yields
    [0, 1, ..., n-1], the array the commented alternative
    [np.asarray(range(mesh.nC))] builds, and restricting a full-mesh vector
    returns it unchanged. *)
Theorem all_active_is_identity {A : Type} (v : list A) :
  (Z.of_nat (length v) < 2 ^ 63)%Z ->
  actv_indices (replicate (length v) true) = Some (np_arange (length v)) /\
  np_take v (np_arange (length v)) = Some v.
Proof.
  intros Hlen.
  assert (Hw : np_where (replicate (length v) true) = np_arange (length v)).
  { rewrite np_where_trues_from, trues_from_all_true. reflexivity. }
  assert (Hidx : actv_indices (replicate (length v) true) = Some (np_arange (length v))).
  { destruct (actv_indices_defined (replicate (length v) true)) as [actv Hactv].
    - rewrite length_replicate. exact Hlen.
    - rewrite Hactv. f_equal. rewrite <- Hw. apply actv_indices_sound, Hactv. }
  split; [exact Hidx|].
  rewrite <- Hw, np_where_trues_from.
  transitivity (Some (compress (replicate (length v) true) v)).
  - apply (np_take_trues_from (replicate (length v) true) [] v).
    rewrite length_replicate. lia.
  - rewrite compress_all_true. reflexivity.
Qed.

(** Witness of X3. *)
Lemma all_active_is_identity_witness :
  actv_indices (replicate 3 true) = Some (np_arange 3) /\
  np_take [5%Z; 6%Z; 7%Z] (np_arange 3) = Some [5%Z; 6%Z; 7%Z].
Proof.
  apply (all_active_is_identity [5%Z; 6%Z; 7%Z]). reflexivity.
Defined.

End ActiveCellsFacts.

Module DistanceWeightsInputsFacts.
Import NP DistanceWeights DistanceWeightsInputs DistanceWeightsFacts.
Local Open Scope R_scope.

Lemma column_norms_length (ncols : nat) (G : list (list R)) :
  has_shape ncols G -> length (column_norms ncols G) = ncols.
Proof.
  intros Hsh. rewrite (column_norms_col_l2 _ _ Hsh), length_map, length_seq. reflexivity.
Qed.

(** X5.  For a sensitivity matrix of shape [(_, ncols)] the two lines raise
    (the [ValueError] of [np.max] on an empty array) exactly when there is no
    column, that is, no active cell; otherwise they return one weight per
    column. *)
Theorem cell_weights_raise_iff_no_column (ncols : nat) (G : list (list R)) :
  has_shape ncols G ->
  (cell_weights ncols G = None <-> ncols = 0%nat) /\
  (forall wr : list npfloat, cell_weights ncols G = Some wr -> length wr = ncols).
Proof.
  intros Hsh. pose proof (column_norms_length ncols G Hsh) as Hlen.
  unfold cell_weights, normalise.
  destruct (column_norms ncols G) as [|x rest] eqn:E; simpl in *.
  - split; [split; [intros _; lia | reflexivity] | intros wr; discriminate].
  - split; [split; [discriminate | lia]|].
    intros wr [= <-]. simpl. rewrite length_map. exact Hlen.
Qed.

(** Witness of X5: a matrix with one receiver and no cell. *)
Lemma cell_weights_raise_iff_no_column_witness :
  (cell_weights 0 [[]] = None <-> 0%nat = 0%nat) /\
  (forall wr : list npfloat, cell_weights 0 [[]] = Some wr -> length wr = 0%nat).
Proof.
  apply (cell_weights_raise_iff_no_column 0 [[]]). repeat constructor.
Defined.

Lemma sumsq_zero_column (G : list (list R)) (j : nat) (a : R) :
  zero_column G j ->
  fold_left (fun s row => s + nth j row 0 * nth j row 0) G a = a.
Proof.
  unfold zero_column. revert a; induction G as [|row G IH]; intros a Hz; simpl; [reflexivity|].
  inversion Hz as [|? ? Hrow HG]; subst. rewrite Hrow, IH by exact HG. lra.
Qed.

Lemma col_l2_zero_iff (G : list (list R)) (j : nat) :
  col_l2 G j = 0 <-> zero_column G j.
Proof.
  split.
  - intros H0. unfold zero_column. apply List.Forall_forall. intros row Hrow.
    destruct (Req_dec (nth j row 0) 0) as [Hz | Hnz]; [exact Hz|].
    pose proof (col_l2_pos G j row Hrow Hnz). lra.
  - intros Hz. unfold col_l2. rewrite (sumsq_zero_column G j 0 Hz). apply sqrt_0.
Qed.

Lemma zero_matrix_zero_column (G : list (list R)) (j : nat) :
  zero_matrix G -> zero_column G j.
Proof.
  unfold zero_matrix, zero_column. intros Hz.
  eapply List.Forall_impl; [|exact Hz]. simpl. intros row Hrow.
  destruct (nth_in_or_default j row 0) as [Hin | Hd]; [|exact Hd].
  rewrite List.Forall_forall in Hrow. exact (Hrow _ Hin).
Qed.

(** X6.  On an all-zero sensitivity matrix with at least one column every
    weight is [nan] (each is [0/0]): the cell returns, it does not raise. *)
Theorem cell_weights_of_zero_matrix (ncols : nat) (G : list (list R)) :
  has_shape ncols G -> zero_matrix G -> (0 < ncols)%nat ->
  cell_weights ncols G = Some (replicate ncols NaN).
Proof.
  intros Hsh Hz Hpos.
  assert (Hnorms : column_norms ncols G = replicate ncols 0).
  { rewrite (column_norms_col_l2 _ _ Hsh). apply list_eq. intros j.
    change (map (col_l2 G) ?l) with (col_l2 G <$> l). rewrite list_lookup_fmap.
    destruct (Nat.lt_ge_cases j ncols) as [Hlt | Hge].
    - rewrite lookup_seq_lt, lookup_replicate_2 by exact Hlt. simpl.
      f_equal. apply col_l2_zero_iff, zero_matrix_zero_column, Hz.
    - rewrite lookup_seq_ge by exact Hge. symmetry. apply lookup_replicate_None. exact Hge. }
  unfold cell_weights, normalise. rewrite Hnorms.
  destruct ncols as [|n]; [lia|]. simpl.
  assert (Hmax : fold_left Rmax (replicate n 0) 0 = 0).
  { clear. induction n as [|n IH]; simpl; [reflexivity|].
    rewrite Rmax_left by lra. exact IH. }
  rewrite Hmax, np_div_zero_zero. f_equal. f_equal.
  clear. induction n as [|n IH]; simpl; [reflexivity|].
  rewrite np_div_zero_zero, IH. reflexivity.
Qed.

(** Witness of X6: two receivers, two cells, no sensitivity. *)
Lemma cell_weights_of_zero_matrix_witness :
  cell_weights 2 [[0; 0]; [0; 0]] = Some (replicate 2 NaN).
Proof.
  apply (cell_weights_of_zero_matrix 2 [[0; 0]; [0; 0]]).
  - repeat constructor.
  - repeat constructor.
  - lia.
Defined.

(** The weights in closed form, for a matrix with a non-zero entry. *)
Lemma cell_weights_closed_form (ncols : nat) (G : list (list R)) :
  has_shape ncols G -> has_nonzero_entry G ->
  exists mx : R,
    0 < mx /\
    (exists k : nat, (k < ncols)%nat /\ col_l2 G k = mx) /\
    (forall k : nat, (k < ncols)%nat -> col_l2 G k <= mx) /\
    cell_weights ncols G = Some (map (fun j => Fin (col_l2 G j / mx)) (seq 0 ncols)).
Proof.
  intros Hsh (row & x & Hrow & Hx & Hnz).
  assert (Hlen : length row = ncols).
  { unfold has_shape in Hsh. rewrite List.Forall_forall in Hsh. exact (Hsh row Hrow). }
  destruct (In_nth row x 0 Hx) as (j & Hj & Hnth).
  assert (Hpos : 0 < col_l2 G j) by (apply (col_l2_pos G j row Hrow); rewrite Hnth; exact Hnz).
  assert (Hjin : In (col_l2 G j) (map (col_l2 G) (seq 0 ncols))).
  { apply in_map, in_seq. lia. }
  destruct (np_max (map (col_l2 G) (seq 0 ncols))) as [mx|] eqn:Hmax.
  2:{ destruct (map (col_l2 G) (seq 0 ncols)); [destruct Hjin | discriminate]. }
  destruct (np_max_spec _ _ Hmax) as [Hmem Hub].
  assert (Hmx : 0 < mx) by (eapply Rlt_le_trans; [exact Hpos | apply Hub, Hjin]).
  exists mx. split; [exact Hmx|]. split; [|split].
  - apply in_map_iff in Hmem. destruct Hmem as (k & Hk & Hkin).
    exists k. split; [apply in_seq in Hkin; lia | exact Hk].
  - intros k Hk. apply Hub, in_map, in_seq. lia.
  - unfold cell_weights, normalise. rewrite (column_norms_col_l2 _ _ Hsh), Hmax.
    f_equal. rewrite map_map. apply map_ext. intros k. apply np_div_finite. lra.
Qed.

Lemma closed_form_lookup (ncols : nat) (G : list (list R)) (mx : R) (j : nat) :
  (j < ncols)%nat ->
  map (fun j => Fin (col_l2 G j / mx)) (seq 0 ncols) !! j = Some (Fin (col_l2 G j / mx)).
Proof.
  intros Hj. change (map ?f ?l) with (f <$> l).
  rewrite list_lookup_fmap, lookup_seq_lt by exact Hj. reflexivity.
Qed.

(** X7.  In exact real arithmetic, for a sensitivity matrix with a non-zero
    entry, the weight of a cell is a finite number, and it is zero exactly
    when no receiver is sensitive to the cell (its column of [G] is all
    zero). *)
Theorem zero_weight_iff_zero_column (ncols : nat) (G : list (list R)) (j : nat) :
  has_shape ncols G -> has_nonzero_entry G -> (j < ncols)%nat ->
  exists (wr : list npfloat) (w : R),
    cell_weights ncols G = Some wr /\ wr !! j = Some (Fin w) /\
    (w = 0 <-> zero_column G j).
Proof.
  intros Hsh Hnz Hj.
  destruct (cell_weights_closed_form ncols G Hsh Hnz) as (mx & Hmx & _ & _ & Hcw).
  eexists _, (col_l2 G j / mx). split; [exact Hcw|].
  split; [apply closed_form_lookup; exact Hj|].
  rewrite <- col_l2_zero_iff. split.
  - intros H0. apply (Rmult_eq_compat_r mx) in H0. field_simplify in H0; lra.
  - intros H0. rewrite H0. field. lra.
Qed.

(** Witness of X7: the second cell of [[3, 0], [4, 0]] is seen by no
    receiver. *)
Lemma zero_weight_iff_zero_column_witness :
  exists (wr : list npfloat) (w : R),
    cell_weights 2 [[3; 0]; [4; 0]] = Some wr /\ wr !! 1%nat = Some (Fin w) /\
    (w = 0 <-> zero_column [[3; 0]; [4; 0]] 1).
Proof.
  apply (zero_weight_iff_zero_column 2 [[3; 0]; [4; 0]] 1).
  - repeat constructor.
  - exists [3; 0], 3. simpl. repeat split; [left; reflexivity | left; reflexivity | lra].
  - lia.
Defined.

(** X8.  In exact real arithmetic, for a sensitivity matrix with a non-zero
    entry, the weight of a cell equals 1 exactly when no other column has a
    larger L2 norm. *)
Theorem unit_weight_iff_largest_norm (ncols : nat) (G : list (list R)) (j : nat) :
  has_shape ncols G -> has_nonzero_entry G -> (j < ncols)%nat ->
  exists (wr : list npfloat) (w : R),
    cell_weights ncols G = Some wr /\ wr !! j = Some (Fin w) /\
    (w = 1 <-> forall k : nat, (k < ncols)%nat -> col_l2 G k <= col_l2 G j).
Proof.
  intros Hsh Hnz Hj.
  destruct (cell_weights_closed_form ncols G Hsh Hnz)
    as (mx & Hmx & (k0 & Hk0 & Hatt) & Hub & Hcw).
  eexists _, (col_l2 G j / mx). split; [exact Hcw|].
  split; [apply closed_form_lookup; exact Hj|].
  assert (Heq : col_l2 G j / mx = 1 <-> col_l2 G j = mx).
  { split; intros H.
    - apply (Rmult_eq_compat_r mx) in H. field_simplify in H; lra.
    - rewrite H. field. lra. }
  rewrite Heq. split.
  - intros -> k Hk. apply Hub, Hk.
  - intros Hall. apply Rle_antisym; [apply Hub, Hj|].
    rewrite <- Hatt. apply Hall, Hk0.
Qed.

(** Witness of X8. *)
Lemma unit_weight_iff_largest_norm_witness :
  exists (wr : list npfloat) (w : R),
    cell_weights 2 [[3; 0]; [4; 0]] = Some wr /\ wr !! 0%nat = Some (Fin w) /\
    (w = 1 <-> forall k : nat, (k < 2)%nat ->
                 col_l2 [[3; 0]; [4; 0]] k <= col_l2 [[3; 0]; [4; 0]] 0).
Proof.
  apply (unit_weight_iff_largest_norm 2 [[3; 0]; [4; 0]] 0).
  - repeat constructor.
  - exists [3; 0], 3. simpl. repeat split; [left; reflexivity | left; reflexivity | lra].
  - lia.
Defined.

End DistanceWeightsInputsFacts.

Module DistanceWeightsInvariance.
Import NP DistanceWeights DistanceWeightsInputs DistanceWeightsFacts.
Local Open Scope R_scope.

Lemma nth_scaled_row (c : R) (row : list R) (j : nat) :
  nth j (map (Rmult c) row) 0 = c * nth j row 0.
Proof.
  rewrite <- (map_nth (Rmult c) row 0 j). f_equal. lra.
Qed.

Lemma sumsq_scaled (c : R) (G : list (list R)) (j : nat) (a : R) :
  fold_left (fun s row => s + nth j row 0 * nth j row 0) (scale_matrix c G) (c * c * a) =
  c * c * fold_left (fun s row => s + nth j row 0 * nth j row 0) G a.
Proof.
  unfold scale_matrix. revert a; induction G as [|row G IH]; intros a; simpl; [reflexivity|].
  rewrite <- IH. f_equal. rewrite nth_scaled_row. lra.
Qed.

Lemma col_l2_scaled (c : R) (G : list (list R)) (j : nat) :
  col_l2 (scale_matrix c G) j = Rabs c * col_l2 G j.
Proof.
  unfold col_l2.
  replace 0 with (c * c * 0) at 1 by lra.
  rewrite sumsq_scaled, sqrt_mult_alt by nra.
  f_equal. exact (sqrt_Rsqr_abs c).
Qed.

Lemma scale_matrix_shape (c : R) (ncols : nat) (G : list (list R)) :
  has_shape ncols G -> has_shape ncols (scale_matrix c G).
Proof.
  unfold has_shape, scale_matrix. intros H. rewrite List.Forall_map.
  eapply List.Forall_impl; [|exact H]. simpl. intros row Hrow.
  rewrite length_map. exact Hrow.
Qed.

Lemma fold_Rmax_scaled (k : R) (l : list R) (x : R) :
  0 <= k -> fold_left Rmax (map (Rmult k) l) (k * x) = k * fold_left Rmax l x.
Proof.
  intros Hk. revert x; induction l as [|y l IH]; intros x; simpl; [reflexivity|].
  rewrite RmaxRmult by exact Hk. apply IH.
Qed.

Lemma np_div_scaled (k w mx : R) : 0 < k -> np_div (k * w) (k * mx) = np_div w mx.
Proof.
  intros Hk. unfold np_div.
  destruct (Req_EM_T (k * mx) 0) as [E1 | E1]; destruct (Req_EM_T mx 0) as [E2 | E2].
  - destruct (Req_EM_T (k * w) 0) as [E3 | E3]; destruct (Req_EM_T w 0) as [E4 | E4];
      try reflexivity; try (exfalso; nra).
    destruct (Rlt_dec 0 (k * w)); destruct (Rlt_dec 0 w); try reflexivity; exfalso; nra.
  - exfalso. nra.
  - exfalso. subst mx. apply E1. lra.
  - f_equal. field. split; lra.
Qed.

Lemma normalise_scaled (k : R) (l : list R) :
  0 < k -> normalise (map (Rmult k) l) = normalise l.
Proof.
  intros Hk. unfold normalise. destruct l as [|x l]; [reflexivity|].
  cbn [map np_max]. rewrite fold_Rmax_scaled by lra.
  f_equal. f_equal; [apply np_div_scaled; exact Hk|].
  rewrite map_map. apply map_ext. intros w. apply np_div_scaled. exact Hk.
Qed.

(** X9.  In exact real arithmetic the weights do not depend on the unit of
    the sensitivities: multiplying every entry of [G] by one non-zero factor
    leaves the result of the two lines unchanged. *)
Theorem cell_weights_scale_invariant (c : R) (ncols : nat) (G : list (list R)) :
  has_shape ncols G -> c <> 0 ->
  cell_weights ncols (scale_matrix c G) = cell_weights ncols G.
Proof.
  intros Hsh Hc. unfold cell_weights.
  rewrite (column_norms_col_l2 ncols (scale_matrix c G) (scale_matrix_shape c ncols G Hsh)).
  rewrite (column_norms_col_l2 ncols G Hsh).
  rewrite (map_ext _ (fun j => Rabs c * col_l2 G j) (col_l2_scaled c G)).
  rewrite <- (map_map (col_l2 G) (Rmult (Rabs c))).
  apply normalise_scaled. apply Rabs_pos_lt. exact Hc.
Qed.

(** Witness of X9: the sensitivities in another unit (factor 1000). *)
Lemma cell_weights_scale_invariant_witness :
  cell_weights 2 (scale_matrix 1000 [[3; 0]; [4; 0]]) = cell_weights 2 [[3; 0]; [4; 0]].
Proof.
  apply (cell_weights_scale_invariant 1000 2 [[3; 0]; [4; 0]]).
  - repeat constructor.
  - lra.
Defined.

Lemma sumsq_permutation (G G' : list (list R)) (j : nat) :
  Permutation G G' ->
  forall a : R,
    fold_left (fun s row => s + nth j row 0 * nth j row 0) G a =
    fold_left (fun s row => s + nth j row 0 * nth j row 0) G' a.
Proof.
  induction 1 as [|row G G' _ IH|r1 r2 G|G1 G2 G3 _ IH12 _ IH23]; intros a; simpl.
  - reflexivity.
  - apply IH.
  - f_equal. lra.
  - rewrite IH12. apply IH23.
Qed.

(** X10.  In exact real arithmetic the weights do not depend on the order
    of the receivers: permuting the rows of [G] leaves the result of the two
    lines unchanged. *)
Theorem cell_weights_receiver_order (ncols : nat) (G G' : list (list R)) :
  has_shape ncols G -> Permutation G G' ->
  cell_weights ncols G' = cell_weights ncols G.
Proof.
  intros Hsh Hperm.
  assert (Hsh' : has_shape ncols G') by (exact (Permutation_Forall Hperm Hsh)).
  unfold cell_weights.
  rewrite (column_norms_col_l2 ncols G' Hsh'), (column_norms_col_l2 ncols G Hsh).
  f_equal. apply map_ext. intros j. unfold col_l2. f_equal.
  symmetry. apply sumsq_permutation, Hperm.
Qed.

(** Witness of X10: two receivers swapped. *)
Lemma cell_weights_receiver_order_witness :
  cell_weights 2 [[4; 0]; [3; 0]] = cell_weights 2 [[3; 0]; [4; 0]].
Proof.
  apply (cell_weights_receiver_order 2 [[3; 0]; [4; 0]] [[4; 0]; [3; 0]]).
  - repeat constructor.
  - apply perm_swap.
Defined.

End DistanceWeightsInvariance.

Module BlockModelFacts.
Import BlockModel.

Lemma cell_zeros (nx ny nz i j k : nat) :
  (i < nx)%nat -> (j < ny)%nat -> (k < nz)%nat ->
  cell (np_zeros3 nx ny nz) i j k = Some 0%R.
Proof.
  intros Hi Hj Hk. unfold cell, np_zeros3.
  rewrite (lookup_replicate_2 nx _ i Hi), (lookup_replicate_2 ny _ j Hj).
  apply lookup_replicate_2, Hk.
Qed.

Lemma cell_set_slice3 (a : list (list (list R))) (sx sy sz : Z * Z) (val : R)
      (i j k : nat) (plane : list (list R)) (line : list R) (x : R) :
  a !! i = Some plane -> plane !! j = Some line -> line !! k = Some x ->
  cell (set_slice3 a sx sy sz val) i j k =
  Some (if in_slice (length a) sx i && in_slice (length plane) sy j &&
           in_slice (length line) sz k
        then val else x).
Proof.
  intros Hp Hl Hx. unfold cell, set_slice3.
  rewrite list_lookup_imap, Hp. simpl.
  destruct (in_slice (length a) sx i); simpl; [|rewrite Hl; exact Hx].
  rewrite list_lookup_imap, Hl. simpl.
  destruct (in_slice (length plane) sy j); simpl; [|exact Hx].
  rewrite list_lookup_imap, Hx. reflexivity.
Qed.

Lemma cell_block_model (nx ny nz i j k : nat) :
  (i < nx)%nat -> (j < ny)%nat -> (k < nz)%nat ->
  cell (block_model nx ny nz) i j k =
  Some (if in_slice nx (mid nx - 2, mid nx + 2)%Z i &&
           in_slice ny (mid ny - 2, mid ny + 2)%Z j &&
           in_slice nz (-6, -2)%Z k
        then 0.02%R else 0%R).
Proof.
  intros Hi Hj Hk. unfold block_model.
  rewrite (cell_set_slice3 _ _ _ _ _ i j k (replicate ny (replicate nz 0%R))
             (replicate nz 0%R) 0%R).
  - unfold np_zeros3. rewrite !length_replicate. reflexivity.
  - apply lookup_replicate_2, Hi.
  - apply lookup_replicate_2, Hj.
  - apply lookup_replicate_2, Hk.
Qed.

Lemma mid_of_nat (n : nat) : mid n = Z.of_nat (n / 2).
Proof. unfold mid. rewrite Nat2Z.inj_div. reflexivity. Qed.

Lemma centre_slice_wide (n i : nat) :
  (4 <= n)%nat ->
  in_slice n (mid n - 2, mid n + 2)%Z i = ((n / 2 - 2 <=? i) && (i <? n / 2 + 2))%nat.
Proof.
  intros Hn. unfold in_slice, adjust; cbn [fst snd]. rewrite mid_of_nat.
  pose proof (Nat.div_mod_eq n 2) as Hdiv.
  pose proof (Nat.mod_upper_bound n 2 ltac:(lia)) as Hmod.
  apply eq_true_iff_eq. rewrite !andb_true_iff, Z.leb_le, Z.ltb_lt, Nat.leb_le, Nat.ltb_lt.
  destruct (Z.ltb_spec (Z.of_nat (n / 2) - 2) 0); [lia|].
  destruct (Z.leb_spec (Z.of_nat n) (Z.of_nat (n / 2) - 2)); [lia|].
  destruct (Z.ltb_spec (Z.of_nat (n / 2) + 2) 0); [lia|].
  destruct (Z.leb_spec (Z.of_nat n) (Z.of_nat (n / 2) + 2)); lia.
Qed.

Lemma depth_slice_deep (n k : nat) :
  (6 <= n)%nat ->
  in_slice n (-6, -2)%Z k = ((n - 6 <=? k) && (k <? n - 2))%nat.
Proof.
  intros Hn. unfold in_slice, adjust; simpl.
  apply eq_true_iff_eq. rewrite !andb_true_iff, Z.leb_le, Z.ltb_lt, Nat.leb_le, Nat.ltb_lt.
  destruct (Z.ltb_spec (-6 + Z.of_nat n) 0); [lia|].
  destruct (Z.ltb_spec (-2 + Z.of_nat n) 0); lia.
Qed.

(** X11.  On a mesh with at least 4 cells along x and y and at least 6 along
    z, the slice assignment sets exactly the 4 x 4 x 4 cells with
    [nCx/2-2 <= i < nCx/2+2], [nCy/2-2 <= j < nCy/2+2] and
    [nCz-6 <= k < nCz-2] to 0.02; every other cell stays 0. *)
Theorem block_model_extent (nx ny nz i j k : nat) :
  (4 <= nx)%nat -> (4 <= ny)%nat -> (6 <= nz)%nat ->
  (i < nx)%nat -> (j < ny)%nat -> (k < nz)%nat ->
  cell (block_model nx ny nz) i j k =
    Some (if in_centre_block nx ny nz i j k then 0.02%R else 0%R) /\
  slice_length nx (mid nx - 2, mid nx + 2)%Z = 4%Z /\
  slice_length ny (mid ny - 2, mid ny + 2)%Z = 4%Z /\
  slice_length nz (-6, -2)%Z = 4%Z.
Proof.
  intros Hnx Hny Hnz Hi Hj Hk. split.
  - rewrite (cell_block_model nx ny nz i j k Hi Hj Hk).
    rewrite (centre_slice_wide nx i Hnx), (centre_slice_wide ny j Hny),
            (depth_slice_deep nz k Hnz).
    unfold in_centre_block. rewrite !andb_assoc. reflexivity.
  - assert (Hc : forall n : nat, (4 <= n)%nat ->
                   slice_length n (mid n - 2, mid n + 2)%Z = 4%Z).
    { intros n Hn. unfold slice_length, adjust; cbn [fst snd]. rewrite mid_of_nat.
      pose proof (Nat.div_mod_eq n 2) as Hdiv.
      pose proof (Nat.mod_upper_bound n 2 ltac:(lia)) as Hmod.
      destruct (Z.ltb_spec (Z.of_nat (n / 2) - 2) 0); [lia|].
      destruct (Z.leb_spec (Z.of_nat n) (Z.of_nat (n / 2) - 2)); [lia|].
      destruct (Z.ltb_spec (Z.of_nat (n / 2) + 2) 0); [lia|].
      destruct (Z.leb_spec (Z.of_nat n) (Z.of_nat (n / 2) + 2)); lia. }
    split; [apply Hc, Hnx | split; [apply Hc, Hny|]].
    unfold slice_length, adjust; simpl.
    destruct (Z.ltb_spec (-6 + Z.of_nat nz) 0); [lia|].
    destruct (Z.ltb_spec (-2 + Z.of_nat nz) 0); lia.
Qed.

(** Witness of X11: the notebook's mesh has 20 x 20 x 15 cells; the cell
    (8, 11, 9) is a corner of the block. *)
Lemma block_model_extent_witness :
  cell (block_model 20 20 15) 8 11 9 =
    Some (if in_centre_block 20 20 15 8 11 9 then 0.02%R else 0%R) /\
  slice_length 20 (mid 20 - 2, mid 20 + 2)%Z = 4%Z /\
  slice_length 20 (mid 20 - 2, mid 20 + 2)%Z = 4%Z /\
  slice_length 15 (-6, -2)%Z = 4%Z.
Proof.
  apply (block_model_extent 20 20 15 8 11 9); lia.
Defined.

(** X12.  On a mesh with at most 2 cells along z the slice [-6:-2] is empty:
    the assignment changes nothing and the model is zero everywhere. *)
Theorem block_model_empty_on_shallow_mesh (nx ny nz i j k : nat) :
  (nz <= 2)%nat -> (i < nx)%nat -> (j < ny)%nat -> (k < nz)%nat ->
  cell (block_model nx ny nz) i j k = Some 0%R /\ slice_length nz (-6, -2)%Z = 0%Z.
Proof.
  intros Hnz Hi Hj Hk. split.
  - rewrite (cell_block_model nx ny nz i j k Hi Hj Hk).
    assert (Hz : in_slice nz (-6, -2)%Z k = false).
    { unfold in_slice, adjust; simpl. apply andb_false_iff. right. apply Z.ltb_ge.
      destruct (Z.ltb_spec (-2 + Z.of_nat nz) 0); lia. }
    rewrite Hz, andb_false_r. reflexivity.
  - unfold slice_length, adjust; simpl.
    destruct (Z.ltb_spec (-6 + Z.of_nat nz) 0); destruct (Z.ltb_spec (-2 + Z.of_nat nz) 0); lia.
Qed.

(** Witness of X12. *)
Lemma block_model_empty_on_shallow_mesh_witness :
  cell (block_model 4 4 2) 2 2 1 = Some 0%R /\ slice_length 2 (-6, -2)%Z = 0%Z.
Proof.
  apply (block_model_empty_on_shallow_mesh 4 4 2 2 2 1); lia.
Defined.

(** X13.  On an axis with 1, 2 or 3 cells the slice
    [(mid-2):(mid+2)] has a negative start, which counts from the end: it
    selects only the last index instead of a centred range. *)
Theorem centre_slice_on_narrow_axis (n i : nat) :
  (1 <= n <= 3)%nat -> (i < n)%nat ->
  in_slice n (mid n - 2, mid n + 2)%Z i = (i =? n - 1)%nat.
Proof.
  intros Hn Hi.
  assert (Hcases : n = 1%nat \/ n = 2%nat \/ n = 3%nat) by lia.
  destruct Hcases as [-> | [-> | ->]];
    destruct i as [|[|[|i]]]; try lia; reflexivity.
Qed.

(** Witness of X13. *)
Lemma centre_slice_on_narrow_axis_witness :
  in_slice 3 (mid 3 - 2, mid 3 + 2)%Z 2 = (2 =? 3 - 1)%nat.
Proof.
  apply (centre_slice_on_narrow_axis 3 2); lia.
Defined.

End BlockModelFacts.

Module TopographyFacts.
Import Topography.
Local Open Scope R_scope.

Lemma exp_ge_1 (u : R) : 0 <= u -> 1 <= exp u.
Proof.
  intros [Hpos | <-]; [|rewrite exp_0; lra].
  assert (Hne : u <> 0) by lra.
  pose proof (exp_ineq1 u Hne). lra.
Qed.

Lemma exp_eq_1 (u : R) : 0 <= u -> exp u = 1 -> u = 0.
Proof.
  intros [Hpos | <-] H; [|reflexivity].
  assert (Hne : u <> 0) by lra.
  pose proof (exp_ineq1 u Hne). lra.
Qed.

Lemma radius_nonneg (x y : R) : 0 <= (x * x + y * y) / (75 * 75).
Proof. apply Rmult_le_pos; [nra | lra]. Qed.

(** X14.  The surface is nowhere higher than one unit below the top of the
    mesh, reaches that height only at the origin, and does not rise with the
    distance from the origin; every observation point lies exactly 5 above
    the surface at its own position, hence at most 4 above the top of the
    mesh. *)
Theorem topography_below_observations (top x y : R) :
  topo top x y <= top - 1 /\
  (topo top x y = top - 1 <-> x = 0 /\ y = 0) /\
  (forall x' y' : R, x * x + y * y <= x' * x' + y' * y' -> topo top x' y' <= topo top x y) /\
  obs_height top x y = topo top x y + 5 /\
  obs_height top x y <= top + 4.
Proof.
  pose proof (exp_ge_1 _ (radius_nonneg x y)) as Hge.
  unfold obs_height, topo.
  split; [lra|]. split; [|split; [|split; lra]].
  - split.
    + intros Heq.
      assert (H1 : exp ((x * x + y * y) / (75 * 75)) = 1) by lra.
      apply (exp_eq_1 _ (radius_nonneg x y)) in H1.
      assert (H2 : x * x + y * y = 0) by lra.
      split; nra.
    + intros [-> ->]. replace ((0 * 0 + 0 * 0) / (75 * 75)) with 0 by lra.
      rewrite exp_0. lra.
  - intros x' y' Hr.
    assert (Hle : (x * x + y * y) / (75 * 75) <= (x' * x' + y' * y') / (75 * 75)).
    { apply Rmult_le_compat_r; lra. }
    destruct Hle as [Hlt | Heq]; [apply exp_increasing in Hlt; lra | rewrite Heq; lra].
Qed.

End TopographyFacts.

Module DistanceWeightsBinary64Facts.
Import DistanceWeightsBinary64.

(** Where binary64 departs from exact arithmetic: a square that overflows
    gives the weights [nan, 0], a square that underflows gives [nan, nan],
    although both matrices have a non-zero entry. *)
Lemma cell_weights_f64_overflow_underflow :
  cell_weights_f64 2 [[1e200%float; 1%float]] = Some [PrimFloat.nan; 0%float] /\
  cell_weights_f64 2 [[1e-200%float; 0%float]] = Some [PrimFloat.nan; PrimFloat.nan].
Proof. split; vm_compute; reflexivity. Qed.

(** Rounding and underflow at the level of single columns: two columns
    with the same entries in another order get the weights
    [0.99999999999999978, 1], and a non-zero column whose square underflows
    gets the weight [0]. *)
Lemma cell_weights_f64_rounding :
  cell_weights_f64 2 [[5.4%float; 2.4%float]; [8.5%float; 8.5%float]; [2.4%float; 5.4%float]] =
    Some [0x1.ffffffffffffep-1%float; 1%float] /\
  cell_weights_f64 2 [[1%float; 1e-200%float]] = Some [1%float; 0%float].
Proof. split; vm_compute; reflexivity. Qed.

End DistanceWeightsBinary64Facts.
